(** * Deferred character route of the Rick & Morty Hydrogen example

    A shallow embedding of [app/routes/characters.$id.tsx]: its [loader]
    (the deferred response composer), the [pMinDelay] floor it wraps the
    episodes fetch with, the [Promise.all] join of the two critical fetches,
    and the rendering of [Character], [Locations], [EpisodesGrid] and
    [NoEpisodes].

    Promises are modelled by the time at which they settle (in milliseconds
    after the loader starts, when every query is issued) and by their
    outcome.  The GraphQL client [context.rickAndMorty.query] is a
    parameter of the loader: one function per query document, taking the
    variables and the cache option the route passes. *)

From Stdlib Require Import Ascii String List Arith Lia Bool.
Import ListNotations.
Open Scope string_scope.

(** ** Promises with settle times *)

Inductive error : Type :=
  | FetchError (msg : string)   (* [throw new Error(...)] of the client *)
  | TypeError.                  (* destructuring or dereferencing [null] *)

Inductive outcome (A : Type) : Type :=
  | Fulfilled (v : A)
  | Rejected (e : error).
Arguments Fulfilled {A} v.
Arguments Rejected {A} e.

Record promise (A : Type) : Type := mkPromise {
  settles_at : nat;
  outcome_of : outcome A
}.
Arguments mkPromise {A} settles_at outcome_of.
Arguments settles_at {A} p.
Arguments outcome_of {A} p.

(** [p.then(f)] where [f] may throw: runs when [p] settles. *)
Definition then_ {A B} (p : promise A) (f : A -> outcome B) : promise B :=
  match outcome_of p with
  | Fulfilled v => mkPromise (settles_at p) (f v)
  | Rejected e => mkPromise (settles_at p) (Rejected e)
  end.

(** [Promise.all([p1, p2])]: fulfils once both have fulfilled, rejects as
    soon as one of them rejects (the first one registered on a tie). *)
Definition promise_all2 {A B} (p1 : promise A) (p2 : promise B)
  : promise (A * B) :=
  match outcome_of p1, outcome_of p2 with
  | Fulfilled v1, Fulfilled v2 =>
      mkPromise (Nat.max (settles_at p1) (settles_at p2)) (Fulfilled (v1, v2))
  | Rejected e1, Fulfilled _ => mkPromise (settles_at p1) (Rejected e1)
  | Fulfilled _, Rejected e2 => mkPromise (settles_at p2) (Rejected e2)
  | Rejected e1, Rejected e2 =>
      if Nat.ltb (settles_at p2) (settles_at p1)
      then mkPromise (settles_at p2) (Rejected e2)
      else mkPromise (settles_at p1) (Rejected e1)
  end.

(** [delay(ms)] started at time 0. *)
Definition delay (ms : nat) : promise unit := mkPromise ms (Fulfilled tt).

(** [pMinDelay(promise, minimumDelay)] of the [p-min-delay] dependency, with
    its default [delayRejection: true]: the rejection of [promise] is caught,
    [Promise.all([promise, delay(minimumDelay)])] is awaited, and then the
    value is returned or the caught error rethrown. *)
Definition pMinDelay {A} (p : promise A) (minimumDelay : nat) : promise A :=
  let caught := mkPromise (settles_at p) (Fulfilled (outcome_of p)) in
  then_ (promise_all2 caught (delay minimumDelay)) (fun r => fst r).

(** ** Data returned by the Rick & Morty API *)

Record Character : Type := mkCharacter {
  ch_name : string;
  ch_id : string;
  ch_gender : string;
  ch_image : string;
  ch_type : string;
  ch_species : string;
  ch_origin_name : string;
  ch_location_name : string
}.

Record Resident : Type := mkResident { res_name : string; res_image : string }.

Record Location : Type := mkLocation {
  loc_name : string;
  loc_residents : list Resident
}.

(** The fields of an episode's character; the placeholder's are [{}]. *)
Record EpisodeCharacter : Type := mkEpisodeCharacter {
  ec_name : option string;
  ec_image : option string;
  ec_status : option string
}.

Record Episode : Type := mkEpisode {
  ep_name : string;
  ep_air_date : string;
  ep_id : string;
  ep_characters : list EpisodeCharacter
}.

(** [json.data] of each query; a GraphQL field may come back [null]. *)
Record CharacterQueryData : Type := { cq_character : option Character }.
Record LocationsConnection : Type := { results : list Location }.
Record LocationsQueryData : Type := { lq_locations : option LocationsConnection }.
Record EpisodeCharacterNode : Type := { episode : option (list Episode) }.
Record EpisodesQueryData : Type := { eq_character : option EpisodeCharacterNode }.

(** ** The GraphQL client *)

Inductive CachePolicy : Type := CacheNone | CacheShort | CacheLong.

Inductive QueryDoc : Type :=
  | CHARACTERS_QUERY
  | CHARACTER_QUERY
  | CHARACTER_LOCATIONS_QUERY
  | DEFERRED_CHARACTER_EPISODES_QUERY.

(** Query variables: [{id: params.id}] (the id may be [undefined]) or [{}]. *)
Inductive Variables : Type :=
  | VarsId (id : option string)
  | VarsEmpty
  | VarsNone.

(** A call issued to [context.rickAndMorty.query]. *)
Record Call : Type := mkCall {
  call_doc : QueryDoc;
  call_vars : Variables;
  call_cache : CachePolicy
}.

(** [context.rickAndMorty.query], one entry per document used by the
    routes; each resolves to [json.data], which may be [null]. *)
Record Client : Type := mkClient {
  q_characters : CachePolicy -> promise (option unit);
  q_character : Variables -> CachePolicy -> promise (option CharacterQueryData);
  q_locations : Variables -> CachePolicy -> promise (option LocationsQueryData);
  q_episodes : Variables -> CachePolicy -> promise (option EpisodesQueryData)
}.

(** Issuing [context.rickAndMorty.query(doc, {variables, cache})]: the call
    is recorded and its promise returned. *)
Definition issue {A} (doc : QueryDoc)
    (q : Variables -> CachePolicy -> promise A)
    (vars : Variables) (cache : CachePolicy) : list Call * promise A :=
  ([mkCall doc vars cache], q vars cache).

(** ** The loader of [characters.$id.tsx] *)

(** The object passed to [defer]. *)
Record LoaderData : Type := mkLoaderData {
  character : option Character;
  locations : option LocationsConnection;
  episodesPromise : promise (option EpisodesQueryData)
}.

(** [const [{character}, {locations}] = await Promise.all(...)]: destructuring
    a [null] [json.data] throws. *)
Definition destructure_critical (episodesPromise : promise (option EpisodesQueryData))
    (r : option CharacterQueryData * option LocationsQueryData)
    : outcome LoaderData :=
  match r with
  | (Some cd, Some ld) =>
      Fulfilled (mkLoaderData (cq_character cd) (lq_locations ld) episodesPromise)
  | _ => Rejected TypeError
  end.

(** [loader({context, params})] with [params.id = id]: the calls it issues,
    in order, and the promise it returns. *)
Definition loader (c : Client) (id : option string)
    : list Call * promise LoaderData :=
  let (calls1, episodesFetch) :=
    issue DEFERRED_CHARACTER_EPISODES_QUERY (q_episodes c) (VarsId id) CacheNone in
  let episodesPromise := pMinDelay episodesFetch 2000 in
  let (calls2, characterPromise) :=
    issue CHARACTER_QUERY (q_character c) (VarsId id) CacheNone in
  let (calls3, locationsPromise) :=
    issue CHARACTER_LOCATIONS_QUERY (q_locations c) VarsEmpty CacheNone in
  ((calls1 ++ calls2 ++ calls3)%list,
   then_ (promise_all2 characterPromise locationsPromise)
         (destructure_critical episodesPromise)).

(** The loader of the characters listing (the home route). *)
Definition home_loader (c : Client) : list Call * promise (option unit) :=
  issue CHARACTERS_QUERY (fun _ => q_characters c) VarsNone CacheShort.

(** ** Rendering *)

Inductive Background : Type := White | Grey.

(** An [<li>] of [EpisodesGrid]: its text and background colour. *)
Record EpisodeItem : Type := mkEpisodeItem {
  item_text : string;
  item_background : Background
}.

Definition placeholderEpisode : Episode :=
  mkEpisode "Loading..." "" ""
    [mkEpisodeCharacter None None None;
     mkEpisodeCharacter None None None;
     mkEpisodeCharacter None None None].

Definition episode_item (e : Episode) : EpisodeItem :=
  mkEpisodeItem (ep_name e) (if String.eqb (ep_id e) "" then Grey else White).

(** [EpisodesGrid({episodes})]: four placeholders when [!episodes?.length],
    then [episodeNodes.slice(0, 4)]. *)
Definition EpisodesGrid (episodes : option (list Episode)) : list EpisodeItem :=
  let episodeNodes :=
    match episodes with
    | None | Some [] => repeat placeholderEpisode 4
    | Some es => es
    end in
  map episode_item (firstn 4 episodeNodes).

(** What the [Suspense]/[Await] block shows. *)
Inductive EpisodesView : Type :=
  | GridView (items : list EpisodeItem)
  | NoEpisodes
  | ErrorElement (msg : string).

(** The state of a promise observed at time [t]. *)
Inductive HandleState (A : Type) : Type :=
  | Pending
  | Resolved (v : A)
  | Failed (e : error).
Arguments Pending {A}.
Arguments Resolved {A} v.
Arguments Failed {A} e.

Definition state_at {A} (t : nat) (p : promise A) : HandleState A :=
  if Nat.ltb t (settles_at p) then Pending
  else match outcome_of p with
       | Fulfilled v => Resolved v
       | Rejected e => Failed e
       end.

Definition episodes_error_message : string :=
  "There was an error while fetching the episodes".

(** [<Suspense fallback={<EpisodesGrid />}><Await resolve errorElement>]
    with its child [(data) => !data?.character?.episode ? <NoEpisodes/> :
    <EpisodesGrid episodes={data.character.episode}/>]. *)
Definition AwaitEpisodes (s : HandleState (option EpisodesQueryData))
    : EpisodesView :=
  match s with
  | Pending => GridView (EpisodesGrid None)
  | Failed _ => ErrorElement episodes_error_message
  | Resolved data =>
      match data with
      | Some {| eq_character := Some {| episode := Some eps |} |} =>
          GridView (EpisodesGrid (Some eps))
      | _ => NoEpisodes
      end
  end.

(** [Locations({locations})]: the names of [locations.slice(0, 6)]. *)
Definition Locations (locs : list Location) : list string :=
  map loc_name (firstn 6 locs).

Record Page : Type := mkPage {
  page_title : string;
  page_image : string;
  page_details : list (string * string);
  page_locations : list string;
  page_episodes : EpisodesView
}.

(** [Character()] rendered at time [t]; dereferencing a [null] [character]
    or [locations] throws. *)
Definition CharacterPage (t : nat) (ld : LoaderData) : outcome Page :=
  match character ld, locations ld with
  | Some ch, Some lc =>
      Fulfilled (mkPage (ch_name ch) (ch_image ch)
        ((if String.eqb (ch_type ch) "" then [] else [("Type:", ch_type ch)]) ++
         [("Species:", ch_species ch); ("Gender:", ch_gender ch);
          ("Origin:", ch_origin_name ch); ("Location:", ch_location_name ch)])
        (Locations (results lc))
        (AwaitEpisodes (state_at t (episodesPromise ld))))
  | _, _ => Rejected TypeError
  end.

(** ** Auxiliary definitions for stating properties *)

Definition outcome_map {A B} (f : A -> B) (o : outcome A) : outcome B :=
  match o with
  | Fulfilled v => Fulfilled (f v)
  | Rejected e => Rejected e
  end.

(** The critical part of the loader's result: what the page needs at once. *)
Definition critical_of (ld : LoaderData)
    : option Character * option LocationsConnection :=
  (character ld, locations ld).

(** The same client with another episodes query. *)
Definition with_episodes (c : Client)
    (q : Variables -> CachePolicy -> promise (option EpisodesQueryData)) : Client :=
  mkClient (q_characters c) (q_character c) (q_locations c) q.

(** The placeholder [<li>] of [EpisodesGrid]. *)
Definition placeholder_item : EpisodeItem := episode_item placeholderEpisode.

(** ** A concrete client: character 2 (Morty Smith) *)

Definition morty : Character :=
  mkCharacter "Morty Smith" "2" "Male"
    "https://rickandmortyapi.com/api/character/avatar/2.jpeg" "" "Human"
    "unknown" "Citadel of Ricks".

Definition ep (id name air : string) : Episode :=
  mkEpisode name air id
    [mkEpisodeCharacter (Some "Rick Sanchez") None (Some "Alive")].

Definition morty_episodes : list Episode :=
  [ep "1" "Pilot" "December 2, 2013";
   ep "2" "Lawnmower Dog" "December 9, 2013";
   ep "3" "Anatomy Park" "December 16, 2013";
   ep "4" "M. Night Shaym-Aliens!" "January 13, 2014";
   ep "5" "Meeseeks and Destroy" "January 20, 2014";
   ep "6" "Rick Potion #9" "January 27, 2014"].

Definition loc (name : string) : Location := mkLocation name [].

Definition page1_locations : list Location :=
  [loc "Earth (C-137)"; loc "Abadango"; loc "Citadel of Ricks";
   loc "Worldender's lair"; loc "Anatomy Park"; loc "Interdimensional Cable";
   loc "Immortality Field Resort"].

(** A client whose character, locations and episodes queries settle after
    [tc], [tl] and [te] milliseconds; [chr] is the [character] field. *)
Definition sample_client (tc tl te : nat) (chr : option Character)
    (eps : outcome (option EpisodesQueryData)) : Client :=
  mkClient
    (fun _ => mkPromise 100 (Fulfilled (Some tt)))
    (fun _ _ => mkPromise tc (Fulfilled (Some {| cq_character := chr |})))
    (fun _ _ => mkPromise tl
       (Fulfilled (Some {| lq_locations := Some {| results := page1_locations |} |})))
    (fun _ _ => mkPromise te eps).

Definition episodes_payload (eps : option (list Episode)) : option EpisodesQueryData :=
  Some {| eq_character := Some {| episode := eps |} |}.

Definition morty_client : Client :=
  sample_client 150 300 5 (Some morty) (Fulfilled (episodes_payload (Some morty_episodes))).

Example morty_loader_time : settles_at (snd (loader morty_client (Some "2"))) = 300.
Proof. reflexivity. Qed.

Example morty_handle_time :
  match outcome_of (snd (loader morty_client (Some "2"))) with
  | Fulfilled ld => settles_at (episodesPromise ld) = 2000
  | Rejected _ => False
  end.
Proof. reflexivity. Qed.

Example morty_page_at_300 :
  match outcome_of (snd (loader morty_client (Some "2"))) with
  | Fulfilled ld =>
      outcome_map page_episodes (CharacterPage 300 ld)
      = Fulfilled (GridView (repeat placeholder_item 4))
  | Rejected _ => False
  end.
Proof. reflexivity. Qed.

Example morty_page_at_2000 :
  match outcome_of (snd (loader morty_client (Some "2"))) with
  | Fulfilled ld =>
      outcome_map page_episodes (CharacterPage 2000 ld)
      = Fulfilled (GridView (map episode_item (firstn 4 morty_episodes)))
  | Rejected _ => False
  end.
Proof. reflexivity. Qed.

(** ** Further code of the routes and of the client *)

(** [String(n)] for a natural number: its decimal digits. *)
Definition decimal_digit (d : nat) : Ascii.ascii := Ascii.ascii_of_nat (48 + d).

Fixpoint string_of_nat_aux (fuel n : nat) (acc : string) : string :=
  match fuel with
  | 0 => acc
  | S f =>
      let acc' := String (decimal_digit (n mod 10)) acc in
      if Nat.ltb n 10 then acc' else string_of_nat_aux f (n / 10) acc'
  end.

Definition string_of_nat (n : nat) : string := string_of_nat_aux (S n) n "".

(** [array.map((x, index) => ...)]. *)
Fixpoint mapi_from {A B} (f : nat -> A -> B) (i : nat) (l : list A) : list B :=
  match l with
  | [] => []
  | x :: l' => f i x :: mapi_from f (S i) l'
  end.

(** [episodeNodes] of [EpisodesGrid]. *)
Definition episode_nodes (episodes : option (list Episode)) : list Episode :=
  match episodes with
  | None | Some [] => repeat placeholderEpisode 4
  | Some es => es
  end.

(** The React keys of the [<li>]s of [EpisodesGrid]: [episode.id + index]. *)
Definition EpisodesGrid_keys (episodes : option (list Episode)) : list string :=
  mapi_from (fun index e => (ep_id e ++ string_of_nat index)%string) 0
    (firstn 4 (episode_nodes episodes)).




(** The loader of the character route without deferred data: it awaits the
    character query and returns [json({character})]. *)
Definition loader_plain (c : Client) (id : option string) : promise (option Character) :=
  then_ (q_character c (VarsId id) CacheNone)
        (fun d => match d with
                  | Some cd => Fulfilled (cq_character cd)
                  | None => Rejected TypeError
                  end).

(** The object passed to [defer] by the route variant that defers the
    episodes and awaits only the character. *)
Record LoaderDataDeferred : Type := mkLoaderDataDeferred {
  dcharacter : option Character;
  depisodesPromise : promise (option EpisodesQueryData)
}.

(** That variant's loader: [pMinDelay] of the episodes query, then
    [const {character} = await query(CHARACTER_QUERY)]. *)
Definition loader_deferred (c : Client) (id : option string) : promise LoaderDataDeferred :=
  let episodesPromise := pMinDelay (q_episodes c (VarsId id) CacheNone) 2000 in
  then_ (q_character c (VarsId id) CacheNone)
        (fun d => match d with
                  | Some cd => Fulfilled (mkLoaderDataDeferred (cq_character cd) episodesPromise)
                  | None => Rejected TypeError
                  end).

(** [query.replace(pat, rep)] with a string pattern: the first occurrence of
    [pat] is replaced. *)
Fixpoint drop_chars (n : nat) (s : string) : string :=
  match n, s with
  | 0, _ => s
  | S n', String _ s' => drop_chars n' s'
  | S _, EmptyString => EmptyString
  end.

Fixpoint replace_first (pat rep s : string) : string :=
  if String.prefix pat s then (rep ++ drop_chars (String.length pat) s)%string
  else match s with
       | EmptyString => EmptyString
       | String c s' => String c (replace_first pat rep s')
       end.

Definition graphql_tag : string := "#graphql:rickAndMorty".

(** The [query] field of the body the client posts. *)
Definition request_query (query : string) : string := replace_first graphql_tag "" query.

(** [JSON.stringify] of a string: quotes and the escapes of ECMAScript's
    QuoteJSONString for one-byte code units. *)
Definition hex_digit (d : nat) : Ascii.ascii :=
  if Nat.ltb d 10 then Ascii.ascii_of_nat (48 + d) else Ascii.ascii_of_nat (87 + d).

Definition backslash : Ascii.ascii := Ascii.ascii_of_nat 92.
Definition dquote : Ascii.ascii := Ascii.ascii_of_nat 34.

Definition json_escape_char (c : Ascii.ascii) : string :=
  let n := Ascii.nat_of_ascii c in
  if Nat.eqb n 8 then String backslash "b"
  else if Nat.eqb n 9 then String backslash "t"
  else if Nat.eqb n 10 then String backslash "n"
  else if Nat.eqb n 12 then String backslash "f"
  else if Nat.eqb n 13 then String backslash "r"
  else if Nat.eqb n 34 then String backslash (String dquote "")
  else if Nat.eqb n 92 then String backslash (String backslash "")
  else if Nat.ltb n 32 then
    String backslash (String "u"%char (String "0"%char (String "0"%char
      (String (hex_digit (n / 16)) (String (hex_digit (n mod 16)) "")))))
  else String c "".

Fixpoint json_escape (s : string) : string :=
  match s with
  | EmptyString => EmptyString
  | String c s' => (json_escape_char c ++ json_escape s')%string
  end.

Definition json_quote (s : string) : string :=
  String dquote (json_escape s ++ String dquote "").

(** [JSON.stringify(options.variables)]: [undefined] stays [undefined], an
    [undefined] property is omitted. *)
Definition stringify_variables (v : Variables) : option string :=
  match v with
  | VarsId (Some id) =>
      Some ("{" ++ json_quote "id" ++ ":" ++ json_quote id ++ "}")
  | VarsId None | VarsEmpty => Some "{}"
  | VarsNone => None
  end.

(** The cache key of the client's [withCache] call in the README:
    [['r&m', query, JSON.stringify(options.variables)]]. *)
Definition cache_key (doc : QueryDoc) (v : Variables) : string * QueryDoc * option string :=
  ("r&m", doc, stringify_variables v).

(** The key of the earlier client variant: [['r&m', query]]. *)
Definition cache_key_no_vars (doc : QueryDoc) (v : Variables) : string * QueryDoc :=
  ("r&m", doc).

(** ** General lemmas *)

Lemma pMinDelay_settles_at {A} (p : promise A) (d : nat) :
  settles_at (pMinDelay p d) = Nat.max (settles_at p) d.
Proof. reflexivity. Qed.

Lemma pMinDelay_outcome {A} (p : promise A) (d : nat) :
  outcome_of (pMinDelay p d) = outcome_of p.
Proof. reflexivity. Qed.

Lemma loader_calls_eq (c : Client) (id : option string) :
  fst (loader c id) =
  [mkCall DEFERRED_CHARACTER_EPISODES_QUERY (VarsId id) CacheNone;
   mkCall CHARACTER_QUERY (VarsId id) CacheNone;
   mkCall CHARACTER_LOCATIONS_QUERY VarsEmpty CacheNone].
Proof. reflexivity. Qed.

Lemma loader_promise_eq (c : Client) (id : option string) :
  snd (loader c id) =
  then_ (promise_all2 (q_character c (VarsId id) CacheNone)
                      (q_locations c VarsEmpty CacheNone))
        (destructure_critical (pMinDelay (q_episodes c (VarsId id) CacheNone) 2000)).
Proof. reflexivity. Qed.

Lemma loader_fulfilled_inv (c : Client) (id : option string) (ld : LoaderData) :
  outcome_of (snd (loader c id)) = Fulfilled ld ->
  exists cd lq,
    outcome_of (q_character c (VarsId id) CacheNone) = Fulfilled (Some cd) /\
    outcome_of (q_locations c VarsEmpty CacheNone) = Fulfilled (Some lq) /\
    settles_at (snd (loader c id)) =
      Nat.max (settles_at (q_character c (VarsId id) CacheNone))
              (settles_at (q_locations c VarsEmpty CacheNone)) /\
    ld = mkLoaderData (cq_character cd) (lq_locations lq)
           (pMinDelay (q_episodes c (VarsId id) CacheNone) 2000).
Proof.
  rewrite loader_promise_eq.
  destruct (q_character c (VarsId id) CacheNone) as [t1 [[cd|] | e1]];
  destruct (q_locations c VarsEmpty CacheNone) as [t2 [[lq|] | e2]];
  unfold then_, promise_all2, destructure_critical; simpl;
  try (destruct (Nat.ltb t2 t1)); simpl; intro H; try discriminate.
  all: injection H as <-; exists cd, lq; auto.
Qed.

(** The settle time and the critical part of [then_ (Promise.all ...)]
    do not depend on the deferred promise stored next to them. *)
Lemma critical_join_independent {A B}
    (p1 : promise A) (p2 : promise B)
    (k1 k2 : A * B -> outcome LoaderData) :
  (forall r, outcome_map critical_of (k1 r) = outcome_map critical_of (k2 r)) ->
  settles_at (then_ (promise_all2 p1 p2) k1) = settles_at (then_ (promise_all2 p1 p2) k2) /\
  outcome_map critical_of (outcome_of (then_ (promise_all2 p1 p2) k1)) =
  outcome_map critical_of (outcome_of (then_ (promise_all2 p1 p2) k2)).
Proof.
  intros Hk.
  destruct p1 as [t1 [v1|e1]], p2 as [t2 [v2|e2]];
  unfold then_, promise_all2; simpl;
  try (destruct (Nat.ltb t2 t1)); simpl; auto.
Qed.

Lemma destructure_critical_independent (e1 e2 : promise (option EpisodesQueryData)) r :
  outcome_map critical_of (destructure_critical e1 r) =
  outcome_map critical_of (destructure_critical e2 r).
Proof. destruct r as [[cd|] [lq|]]; reflexivity. Qed.

Lemma loader_critical_independent (c : Client) (id : option string)
    (q : Variables -> CachePolicy -> promise (option EpisodesQueryData)) :
  settles_at (snd (loader (with_episodes c q) id)) = settles_at (snd (loader c id)) /\
  outcome_map critical_of (outcome_of (snd (loader (with_episodes c q) id))) =
  outcome_map critical_of (outcome_of (snd (loader c id))).
Proof.
  rewrite !loader_promise_eq. simpl.
  apply critical_join_independent. intro r.
  apply destructure_critical_independent.
Qed.

Lemma state_at_settled {A} (t : nat) (p : promise A) :
  settles_at p <= t ->
  state_at t p = match outcome_of p with
                 | Fulfilled v => Resolved v
                 | Rejected e => Failed e
                 end.
Proof.
  intros H. unfold state_at.
  destruct (Nat.ltb_spec t (settles_at p)); [lia | reflexivity].
Qed.

Lemma state_at_pending {A} (t : nat) (p : promise A) :
  state_at t p = Pending <-> t < settles_at p.
Proof.
  unfold state_at.
  destruct (Nat.ltb_spec t (settles_at p)) as [Hlt | Hge]; split; intro H;
    auto; try lia.
  destruct (outcome_of p); discriminate.
Qed.

(** ** Claims *)

(** C1: the episodes handle the loader hands over settles exactly at the
    maximum of the 2000ms floor and the episodes fetch's own settle time,
    with the fetch's outcome: a fast fetch is padded up to the floor, a slow
    one is not delayed further. *)
Theorem C1_min_delay_floor (c : Client) (id : option string) (ld : LoaderData) :
  outcome_of (snd (loader c id)) = Fulfilled ld ->
  let fetch := q_episodes c (VarsId id) CacheNone in
  settles_at (episodesPromise ld) = Nat.max 2000 (settles_at fetch) /\
  outcome_of (episodesPromise ld) = outcome_of fetch /\
  (settles_at fetch <= 2000 -> settles_at (episodesPromise ld) = 2000) /\
  (2000 <= settles_at fetch -> settles_at (episodesPromise ld) = settles_at fetch).
Proof.
  intros H fetch.
  destruct (loader_fulfilled_inv c id ld H) as (cd & lq & _ & _ & _ & ->).
  cbn [episodesPromise]. rewrite pMinDelay_settles_at, pMinDelay_outcome.
  subst fetch. repeat split; intros; lia.
Qed.

Lemma C1_witness :
  outcome_of (snd (loader morty_client (Some "2"))) =
    Fulfilled (mkLoaderData (Some morty) (Some {| results := page1_locations |})
      (pMinDelay (q_episodes morty_client (VarsId (Some "2")) CacheNone) 2000)) /\
  settles_at (episodesPromise
      (mkLoaderData (Some morty) (Some {| results := page1_locations |})
         (pMinDelay (q_episodes morty_client (VarsId (Some "2")) CacheNone) 2000)))
    = 2000.
Proof.
  split; [reflexivity |].
  exact (proj1 (C1_min_delay_floor morty_client (Some "2") _ eq_refl)).
Defined.

(** A client whose critical fetches take 3000ms and whose episodes fetch
    takes 5ms. *)
Definition slow_critical_client : Client :=
  sample_client 3000 3000 5 (Some morty)
    (Fulfilled (episodes_payload (Some morty_episodes))).

(** C2 (as stated, refuted): the handle is not always pending when the
    loader returns: with critical fetches of 3000ms and an episodes fetch
    of 5ms, the loader returns at 3000ms and the handle has already
    resolved (at 2000ms). *)
Lemma C2_handle_already_settled :
  exists ld,
    outcome_of (snd (loader slow_critical_client (Some "2"))) = Fulfilled ld /\
    settles_at (snd (loader slow_critical_client (Some "2"))) = 3000 /\
    state_at 3000 (episodesPromise ld) <> Pending.
Proof.
  eexists. split; [reflexivity |]. split; [reflexivity |].
  vm_compute. discriminate.
Qed.

(** C2 (amended): the loader's settle time and its critical result depend
    only on the character and locations fetches: replacing the episodes
    query by any other leaves both unchanged.  The handle is returned
    unawaited, as [pMinDelay] of the episodes fetch, and is still pending
    when the loader returns exactly when the loader returns before
    [max 2000 (episodes fetch time)]. *)
Theorem C2_compose_never_awaits_deferred (c : Client) (id : option string) :
  (forall q,
     settles_at (snd (loader (with_episodes c q) id)) = settles_at (snd (loader c id)) /\
     outcome_map critical_of (outcome_of (snd (loader (with_episodes c q) id))) =
     outcome_map critical_of (outcome_of (snd (loader c id)))) /\
  (forall ld, outcome_of (snd (loader c id)) = Fulfilled ld ->
     episodesPromise ld = pMinDelay (q_episodes c (VarsId id) CacheNone) 2000 /\
     (state_at (settles_at (snd (loader c id))) (episodesPromise ld) = Pending <->
      settles_at (snd (loader c id)) <
        Nat.max 2000 (settles_at (q_episodes c (VarsId id) CacheNone)))).
Proof.
  split.
  - intro q. apply loader_critical_independent.
  - intros ld H.
    destruct (loader_fulfilled_inv c id ld H) as (cd & lq & _ & _ & _ & Hld).
    split; [subst ld; reflexivity |].
    rewrite state_at_pending, Hld. cbn [episodesPromise].
    rewrite pMinDelay_settles_at, Nat.max_comm. reflexivity.
Qed.

Lemma C2_witness :
  exists ld,
    outcome_of (snd (loader morty_client (Some "2"))) = Fulfilled ld /\
    episodesPromise ld = pMinDelay (q_episodes morty_client (VarsId (Some "2")) CacheNone) 2000 /\
    state_at 300 (episodesPromise ld) = Pending.
Proof.
  eexists. split; [reflexivity |].
  destruct (C2_compose_never_awaits_deferred morty_client (Some "2")) as [_ H].
  destruct (H _ eq_refl) as [Heq Hpend].
  split; [exact Heq |].
  apply Hpend. vm_compute. repeat constructor.
Defined.

(** C3: the character and locations fetches are both issued before the
    loader waits on anything; the loader fulfils only once both have
    fulfilled (at the later of their settle times), and if either of them
    rejects the loader rejects, returning no critical result. *)
Theorem C3_critical_fan_out_fan_in (c : Client) (id : option string) :
  let characterPromise := q_character c (VarsId id) CacheNone in
  let locationsPromise := q_locations c VarsEmpty CacheNone in
  In (mkCall CHARACTER_QUERY (VarsId id) CacheNone) (fst (loader c id)) /\
  In (mkCall CHARACTER_LOCATIONS_QUERY VarsEmpty CacheNone) (fst (loader c id)) /\
  (forall ld, outcome_of (snd (loader c id)) = Fulfilled ld ->
     (exists cd, outcome_of characterPromise = Fulfilled (Some cd)) /\
     (exists lq, outcome_of locationsPromise = Fulfilled (Some lq)) /\
     settles_at (snd (loader c id)) =
       Nat.max (settles_at characterPromise) (settles_at locationsPromise)) /\
  (forall e, outcome_of characterPromise = Rejected e \/
             outcome_of locationsPromise = Rejected e ->
     exists e', outcome_of (snd (loader c id)) = Rejected e').
Proof.
  intros characterPromise locationsPromise.
  rewrite loader_calls_eq.
  split; [simpl; auto |]. split; [simpl; auto |]. split.
  - intros ld H.
    destruct (loader_fulfilled_inv c id ld H) as (cd & lq & Hc & Hl & Ht & _).
    split; [eauto |]. split; [eauto | exact Ht].
  - intros e He. rewrite loader_promise_eq.
    subst characterPromise locationsPromise.
    destruct (q_character c (VarsId id) CacheNone) as [t1 [v1|e1]];
    destruct (q_locations c VarsEmpty CacheNone) as [t2 [v2|e2]];
    simpl in He; destruct He as [He | He]; try discriminate;
    unfold then_, promise_all2; simpl;
    try (destruct (Nat.ltb t2 t1)); simpl; eauto.
Qed.

Lemma C3_witness :
  exists ld,
    outcome_of (snd (loader morty_client (Some "2"))) = Fulfilled ld /\
    settles_at (snd (loader morty_client (Some "2"))) = 300.
Proof.
  destruct (C3_critical_fan_out_fan_in morty_client (Some "2"))
    as (_ & _ & Hful & _).
  eexists. split; [reflexivity |].
  destruct (Hful _ eq_refl) as (_ & _ & Ht). rewrite Ht. reflexivity.
Defined.

(** C4: a rejected episodes fetch does not make the loader fail: the
    loader's settle time and critical result are those it has with any other
    episodes fetch; once the handle settles, the [Await] block shows its
    [errorElement], a view distinct from [NoEpisodes] and from the grid. *)
Theorem C4_deferred_failure_isolated (c : Client) (id : option string) (e : error) :
  outcome_of (q_episodes c (VarsId id) CacheNone) = Rejected e ->
  (forall q,
     settles_at (snd (loader (with_episodes c q) id)) = settles_at (snd (loader c id)) /\
     outcome_map critical_of (outcome_of (snd (loader (with_episodes c q) id))) =
     outcome_map critical_of (outcome_of (snd (loader c id)))) /\
  (forall ld t, outcome_of (snd (loader c id)) = Fulfilled ld ->
     Nat.max 2000 (settles_at (q_episodes c (VarsId id) CacheNone)) <= t ->
     AwaitEpisodes (state_at t (episodesPromise ld)) =
       ErrorElement episodes_error_message) /\
  ErrorElement episodes_error_message <> NoEpisodes /\
  (forall items, ErrorElement episodes_error_message <> GridView items).
Proof.
  intros He. split; [intro q; apply loader_critical_independent |].
  split; [| split; discriminate].
  intros ld t H Ht.
  destruct (loader_fulfilled_inv c id ld H) as (cd & lq & _ & _ & _ & ->).
  cbn [episodesPromise].
  rewrite state_at_settled.
  - rewrite pMinDelay_outcome, He. reflexivity.
  - rewrite pMinDelay_settles_at. lia.
Qed.

(** A client whose episodes fetch rejects after 5ms. *)
Definition failing_episodes_client : Client :=
  sample_client 150 300 5 (Some morty)
    (Rejected (FetchError "Error fetching from rick and morty api: Bad Gateway")).

Lemma C4_witness :
  exists ld,
    outcome_of (snd (loader failing_episodes_client (Some "2"))) = Fulfilled ld /\
    AwaitEpisodes (state_at 2000 (episodesPromise ld)) =
      ErrorElement episodes_error_message.
Proof.
  destruct (C4_deferred_failure_isolated failing_episodes_client (Some "2")
              (FetchError "Error fetching from rick and morty api: Bad Gateway")
              eq_refl) as (_ & Herr & _).
  eexists. split; [reflexivity |].
  apply Herr; [reflexivity | vm_compute; constructor].
Defined.

(** A resolved episodes payload without episodes is rendered as [NoEpisodes]
    whenever [data?.character?.episode] is [null] or [undefined]. *)
Lemma absent_episodes_no_data (data : option EpisodesQueryData) :
  match data with
  | Some {| eq_character := Some {| episode := Some _ |} |} => False
  | _ => True
  end ->
  AwaitEpisodes (Resolved data) = NoEpisodes.
Proof.
  destruct data as [[[[[eps|]]|]]|]; simpl; tauto.
Qed.

(** A non-empty resolved list is rendered as its first four episodes. *)
Lemma resolved_nonempty_first_four (eps : list Episode) :
  eps <> [] ->
  AwaitEpisodes (Resolved (episodes_payload (Some eps))) =
    GridView (map episode_item (firstn 4 eps)).
Proof. destruct eps; [contradiction | reflexivity]. Qed.

(** C5 (code defect): a payload whose [episode] list is empty passes the
    [!data?.character?.episode] check (an empty array is truthy), so the
    renderer shows the four "Loading..." placeholders of [EpisodesGrid]
    rather than [NoEpisodes]. *)
Theorem C5_empty_episodes_show_placeholders :
  AwaitEpisodes (Resolved (episodes_payload (Some []))) =
    GridView (repeat placeholder_item 4) /\
  AwaitEpisodes (Resolved (episodes_payload (Some []))) <> NoEpisodes /\
  AwaitEpisodes (Resolved (episodes_payload (Some []))) = AwaitEpisodes Pending.
Proof. repeat split; [discriminate]. Qed.

(** C6 (code defect): while pending the grid shows exactly four inert
    placeholders, but a handle resolved with N = 0 episodes also shows four
    placeholders instead of the (empty) first four entries. *)
Theorem C6_zero_episodes_show_four_placeholders :
  AwaitEpisodes Pending = GridView (repeat placeholder_item 4) /\
  item_text placeholder_item = "Loading..." /\
  item_background placeholder_item = Grey /\
  AwaitEpisodes (Resolved (episodes_payload (Some []))) =
    GridView (repeat placeholder_item 4) /\
  map episode_item (firstn 4 []) = [].
Proof. repeat split. Qed.

(** C7 (as stated, refuted): without an identifier, or with an empty one,
    the loader still issues its three queries. *)
Lemma C7_absent_id_still_fetches :
  length (fst (loader morty_client None)) = 3 /\
  length (fst (loader morty_client (Some ""))) = 3.
Proof. split; reflexivity. Qed.

(** C7 (amended): the loader does not validate [params.id]; for every
    identifier, absent and empty ones included, it issues the episodes,
    character and locations queries, passing the identifier unchanged to
    the first two, and its outcome is decided by those fetches alone. *)
Theorem C7_no_identifier_validation (c : Client) (id : option string) :
  fst (loader c id) =
  [mkCall DEFERRED_CHARACTER_EPISODES_QUERY (VarsId id) CacheNone;
   mkCall CHARACTER_QUERY (VarsId id) CacheNone;
   mkCall CHARACTER_LOCATIONS_QUERY VarsEmpty CacheNone] /\
  snd (loader c id) =
  then_ (promise_all2 (q_character c (VarsId id) CacheNone)
                      (q_locations c VarsEmpty CacheNone))
        (destructure_critical (pMinDelay (q_episodes c (VarsId id) CacheNone) 2000)).
Proof. split; [apply loader_calls_eq | apply loader_promise_eq]. Qed.

(** The API's answer for id "999999": [{character: null}]. *)
Definition nonexistent_client : Client :=
  sample_client 150 300 5 None
    (Fulfilled (Some {| eq_character := None |})).

(** C8 (as stated, refuted): for a nonexistent id the loader does not fail;
    it fulfils with a [null] character. *)
Lemma C8_nonexistent_id_loader_succeeds :
  exists ld,
    outcome_of (snd (loader nonexistent_client (Some "999999"))) = Fulfilled ld /\
    character ld = None.
Proof. eexists. split; reflexivity. Qed.

(** C8 (amended): when the character fetch yields [{character: null}] and
    the locations fetch succeeds, the loader fulfils with a [null]
    character; the whole-view failure only happens when [Character]
    renders, by dereferencing [character.name], at any time. *)
Theorem C8_null_character_fails_at_render (c : Client) (id : option string)
    (lq : LocationsQueryData) :
  outcome_of (q_character c (VarsId id) CacheNone) =
    Fulfilled (Some {| cq_character := None |}) ->
  outcome_of (q_locations c VarsEmpty CacheNone) = Fulfilled (Some lq) ->
  exists ld,
    outcome_of (snd (loader c id)) = Fulfilled ld /\
    character ld = None /\
    (forall t, CharacterPage t ld = Rejected TypeError).
Proof.
  intros Hc Hl. rewrite loader_promise_eq.
  unfold then_, promise_all2. rewrite Hc, Hl. simpl.
  eexists. split; [reflexivity |]. split; [reflexivity |].
  intro t. reflexivity.
Qed.

Lemma C8_witness :
  exists ld,
    outcome_of (snd (loader nonexistent_client (Some "999999"))) = Fulfilled ld /\
    CharacterPage 0 ld = Rejected TypeError.
Proof.
  destruct (C8_null_character_fails_at_render nonexistent_client (Some "999999")
              {| lq_locations := Some {| results := page1_locations |} |}
              eq_refl eq_refl) as (ld & Hld & _ & Hr).
  exists ld. split; [exact Hld | apply Hr].
Defined.

(** The cache policy the spec prescribes for a call: no-cache for a fetch
    keyed by the request's identifier, a short- or long-lived cache for a
    request-independent one. *)
Definition cache_as_prescribed (k : Call) : Prop :=
  match call_vars k with
  | VarsId _ => call_cache k = CacheNone
  | VarsEmpty | VarsNone => call_cache k <> CacheNone
  end.

(** C9 (as stated, refuted): the locations listing (page 1, empty
    variables, request-independent) is fetched with [CacheNone]. *)
Lemma C9_locations_listing_uncached :
  In (mkCall CHARACTER_LOCATIONS_QUERY VarsEmpty CacheNone)
     (fst (loader morty_client (Some "2"))) /\
  ~ Forall cache_as_prescribed (fst (loader morty_client (Some "2"))).
Proof.
  split; [simpl; auto |].
  intro H. inversion H as [| ? ? _ H1]; subst.
  inversion H1 as [| ? ? _ H2]; subst.
  inversion H2 as [| ? ? H3 _]; subst.
  apply H3. reflexivity.
Qed.

(** C9 (amended): every fetch of the character route, the per-entity
    character and episodes fetches keyed by the identifier as well as the
    request-independent locations listing, uses [CacheNone]; the fixed
    characters listing of the home route uses [CacheShort]. *)
Theorem C9_cache_policies (c : Client) (id : option string) :
  Forall (fun k => call_cache k = CacheNone) (fst (loader c id)) /\
  Forall (fun k => call_vars k = VarsId id)
    (filter (fun k => match call_doc k with
                      | CHARACTER_LOCATIONS_QUERY => false
                      | _ => true
                      end) (fst (loader c id))) /\
  fst (home_loader c) = [mkCall CHARACTERS_QUERY VarsNone CacheShort].
Proof.
  rewrite loader_calls_eq.
  split; [repeat constructor |]. split; [repeat constructor | reflexivity].
Qed.

(** C10: [Locations] shows the names of the first six locations, in order,
    and the page built from a critical result shows exactly those. *)
Theorem C10_locations_first_six (t : nat) (ld : LoaderData)
    (ch : Character) (lc : LocationsConnection) :
  character ld = Some ch ->
  locations ld = Some lc ->
  exists pg,
    CharacterPage t ld = Fulfilled pg /\
    page_locations pg = map loc_name (firstn 6 (results lc)) /\
    length (page_locations pg) = Nat.min 6 (length (results lc)) /\
    (exists rest, map loc_name (results lc) = (page_locations pg ++ rest)%list).
Proof.
  intros Hch Hlc. unfold CharacterPage. rewrite Hch, Hlc.
  eexists. split; [reflexivity |]. simpl. unfold Locations.
  split; [reflexivity |]. split.
  - rewrite length_map, length_firstn. reflexivity.
  - exists (map loc_name (skipn 6 (results lc))).
    rewrite <- map_app, firstn_skipn. reflexivity.
Qed.

Lemma C10_witness :
  exists pg,
    CharacterPage 0 (mkLoaderData (Some morty)
                       (Some {| results := page1_locations |})
                       (pMinDelay (q_episodes morty_client (VarsId (Some "2")) CacheNone) 2000))
      = Fulfilled pg /\
    page_locations pg =
      ["Earth (C-137)"; "Abadango"; "Citadel of Ricks";
       "Worldender's lair"; "Anatomy Park"; "Interdimensional Cable"].
Proof.
  destruct (C10_locations_first_six 0
              (mkLoaderData (Some morty) (Some {| results := page1_locations |})
                 (pMinDelay (q_episodes morty_client (VarsId (Some "2")) CacheNone) 2000))
              morty {| results := page1_locations |} eq_refl eq_refl)
    as (pg & Hpg & Hloc & _).
  exists pg. split; [exact Hpg |]. rewrite Hloc. reflexivity.
Defined.

(** ** Further properties of the routes and of the client *)

Lemma EpisodesGrid_nodes (episodes : option (list Episode)) :
  EpisodesGrid episodes = map episode_item (firstn 4 (episode_nodes episodes)).
Proof. destruct episodes as [[|e es]|]; reflexivity. Qed.


Lemma string_of_nat_small (n : nat) :
  n < 10 -> string_of_nat n = String (decimal_digit n) "".
Proof.
  intros H.
  do 10 (destruct n as [|n]; [reflexivity |]). lia.
Qed.

Lemma decimal_digit_inj (n m : nat) :
  n < 10 -> m < 10 -> decimal_digit n = decimal_digit m -> n = m.
Proof.
  intros Hn Hm H. unfold decimal_digit in H.
  apply (f_equal Ascii.nat_of_ascii) in H.
  rewrite !Ascii.nat_ascii_embedding in H by lia. lia.
Qed.

Lemma last_char_app (s1 s2 : string) (a b : Ascii.ascii) :
  (s1 ++ String a "")%string = (s2 ++ String b "")%string -> a = b.
Proof.
  revert s2. induction s1 as [|c1 s1 IH]; intros [|c2 s2] H; simpl in H.
  - congruence.
  - injection H as _ H. destruct s2; discriminate.
  - injection H as _ H. destruct s1; discriminate.
  - injection H as _ H. exact (IH s2 H).
Qed.

Lemma In_mapi_from {A B} (f : nat -> A -> B) (i : nat) (l : list A) (y : B) :
  In y (mapi_from f i l) ->
  exists j x, i <= j < i + length l /\ In x l /\ y = f j x.
Proof.
  revert i. induction l as [|x l IH]; intros i H; simpl in H; [contradiction |].
  destruct H as [H | H].
  - exists i, x. simpl. split; [lia | auto].
  - destruct (IH (S i) H) as (j & x' & Hj & Hx & ->).
    exists j, x'. simpl. split; [lia | auto].
Qed.

Lemma length_mapi_from {A B} (f : nat -> A -> B) (i : nat) (l : list A) :
  length (mapi_from f i l) = length l.
Proof. revert i. induction l; intro i; simpl; auto. Qed.

Lemma episode_keys_nodup (l : list Episode) (i : nat) :
  i + length l <= 10 ->
  NoDup (mapi_from (fun index e => (ep_id e ++ string_of_nat index)%string) i l).
Proof.
  revert i. induction l as [|e l IH]; intros i Hlen; simpl in *; constructor.
  - intros Hin.
    destruct (In_mapi_from _ (S i) l _ Hin) as (j & x & Hj & _ & Heq).
    rewrite !string_of_nat_small in Heq by lia.
    apply last_char_app, decimal_digit_inj in Heq; lia.
  - apply IH. lia.
Qed.

(** The React keys [episode.id + index] of the [EpisodesGrid] entries are
    pairwise distinct, whatever the episode ids (even equal or empty ones):
    the index is a single digit that ends each key. *)
Theorem EpisodesGrid_keys_distinct (episodes : option (list Episode)) :
  NoDup (EpisodesGrid_keys episodes) /\
  length (EpisodesGrid_keys episodes) = length (EpisodesGrid episodes).
Proof.
  split.
  - apply episode_keys_nodup. rewrite length_firstn. lia.
  - rewrite EpisodesGrid_nodes, length_map. unfold EpisodesGrid_keys.
    apply length_mapi_from.
Qed.



(** Deferring the episodes does not change when or with what the character
    route answers: the deferred variant's loader settles exactly when the
    plain loader does, with the same character or the same error. *)
Theorem loader_deferred_as_plain (c : Client) (id : option string) :
  settles_at (loader_deferred c id) = settles_at (loader_plain c id) /\
  outcome_map dcharacter (outcome_of (loader_deferred c id)) =
    outcome_of (loader_plain c id).
Proof.
  unfold loader_deferred, loader_plain, then_.
  destruct (q_character c (VarsId id) CacheNone) as [t [[cd|]|e]]; simpl; auto.
Qed.

(** Joining the locations fetch does not change the character: when the
    character route's loader fulfils, the plain loader fulfils with the same
    character, no later. *)
Theorem loader_extends_plain (c : Client) (id : option string) (ld : LoaderData) :
  outcome_of (snd (loader c id)) = Fulfilled ld ->
  outcome_of (loader_plain c id) = Fulfilled (character ld) /\
  settles_at (loader_plain c id) <= settles_at (snd (loader c id)).
Proof.
  intros H.
  destruct (loader_fulfilled_inv c id ld H) as (cd & lq & Hc & _ & Ht & ->).
  rewrite Ht. unfold loader_plain, then_. rewrite Hc.
  split; [reflexivity |]. cbn [settles_at]. lia.
Qed.

Lemma loader_extends_plain_witness :
  exists ld,
    outcome_of (snd (loader morty_client (Some "2"))) = Fulfilled ld /\
    outcome_of (loader_plain morty_client (Some "2")) = Fulfilled (character ld).
Proof.
  eexists. split; [reflexivity |].
  exact (proj1 (loader_extends_plain morty_client (Some "2") _ eq_refl)).
Defined.

Lemma replace_first_eq (pat rep s : string) :
  replace_first pat rep s =
  if String.prefix pat s then (rep ++ drop_chars (String.length pat) s)%string
  else match s with
       | EmptyString => EmptyString
       | String c s' => String c (replace_first pat rep s')
       end.
Proof. destruct s; reflexivity. Qed.

Lemma prefix_app (p s : string) : String.prefix p (p ++ s) = true.
Proof.
  induction p as [|a p IH]; [destruct s; reflexivity |].
  simpl. destruct (Ascii.ascii_dec a a); [exact IH | congruence].
Qed.

Lemma drop_chars_app (p s : string) : drop_chars (String.length p) (p ++ s) = s.
Proof. induction p as [|a p IH]; [destruct s; reflexivity | exact IH]. Qed.

(** The client posts a document [#graphql:rickAndMorty<body>] (the type of
    its [query] argument) with exactly [<body>] as its [query]: the tag is
    removed once, and any later occurrence of it in the body is kept. *)
Theorem request_query_strips_tag (body : string) :
  request_query (graphql_tag ++ body) = body.
Proof.
  unfold request_query. rewrite replace_first_eq, prefix_app, drop_chars_app.
  reflexivity.
Qed.

(** *** Injectivity of [JSON.stringify] on strings *)

Definition all_ascii : list Ascii.ascii := map Ascii.ascii_of_nat (seq 0 256).

Lemma In_all_ascii (c : Ascii.ascii) : In c all_ascii.
Proof.
  unfold all_ascii. rewrite <- (Ascii.ascii_nat_embedding c).
  apply in_map, in_seq. pose proof (Ascii.nat_ascii_bounded c). lia.
Qed.

Definition escape_head_ok (c : Ascii.ascii) : bool :=
  match json_escape_char c with
  | EmptyString => false
  | String d _ => negb (Ascii.eqb d dquote)
  end.

Definition escape_prefix_free (c1 c2 : Ascii.ascii) : bool :=
  negb (String.prefix (json_escape_char c1) (json_escape_char c2)) || Ascii.eqb c1 c2.

Lemma escape_head_all :
  forallb escape_head_ok all_ascii = true.
Proof. vm_compute. reflexivity. Qed.

Lemma escape_prefix_free_all :
  forallb (fun c1 => forallb (escape_prefix_free c1) all_ascii) all_ascii = true.
Proof. vm_compute. reflexivity. Qed.

Lemma escape_head (c : Ascii.ascii) :
  exists d r, json_escape_char c = String d r /\ d <> dquote.
Proof.
  pose proof (proj1 (forallb_forall _ _) escape_head_all c (In_all_ascii c)) as H.
  unfold escape_head_ok in H. destruct (json_escape_char c) as [|d r]; [discriminate |].
  exists d, r. split; [reflexivity |].
  intro Hd. subst d. rewrite Ascii.eqb_refl in H. discriminate.
Qed.

Lemma escape_prefix (c1 c2 : Ascii.ascii) :
  String.prefix (json_escape_char c1) (json_escape_char c2) = true -> c1 = c2.
Proof.
  intros Hp.
  pose proof (proj1 (forallb_forall _ _) escape_prefix_free_all c1 (In_all_ascii c1)) as H.
  pose proof (proj1 (forallb_forall _ _) H c2 (In_all_ascii c2)) as H'.
  unfold escape_prefix_free in H'. rewrite Hp in H'. simpl in H'.
  apply Ascii.eqb_eq. exact H'.
Qed.

Lemma str_app_assoc (a b c : string) : ((a ++ b) ++ c)%string = (a ++ (b ++ c))%string.
Proof. induction a as [|x a IH]; simpl; [reflexivity | rewrite IH; reflexivity]. Qed.

Lemma str_app_cancel_l (s x y : string) : (s ++ x)%string = (s ++ y)%string -> x = y.
Proof. induction s as [|a s IH]; simpl; [auto | intro H; injection H; auto]. Qed.

Lemma app_eq_prefix (s1 s2 x y : string) :
  (s1 ++ x)%string = (s2 ++ y)%string ->
  String.prefix s1 s2 = true \/ String.prefix s2 s1 = true.
Proof.
  revert s2. induction s1 as [|a s1 IH]; intros [|b s2] H; simpl; auto.
  injection H as <- H.
  destruct (Ascii.ascii_dec a a); [| congruence]. exact (IH s2 H).
Qed.

Lemma prefix_app_inv (p s : string) :
  String.prefix p s = true -> exists r, s = (p ++ r)%string.
Proof.
  revert s. induction p as [|a p IH]; intros s H; [exists s; reflexivity |].
  destruct s as [|b s]; [discriminate |]. simpl in H.
  destruct (Ascii.ascii_dec a b) as [<-|]; [| discriminate].
  destruct (IH s H) as [r ->]. exists r. reflexivity.
Qed.

Lemma escape_app_inj (c1 c2 : Ascii.ascii) (x y : string) :
  (json_escape_char c1 ++ x)%string = (json_escape_char c2 ++ y)%string ->
  c1 = c2 /\ x = y.
Proof.
  intros H.
  assert (c1 = c2) as <-.
  { destruct (app_eq_prefix _ _ _ _ H) as [Hp | Hp].
    - exact (escape_prefix _ _ Hp).
    - symmetry. exact (escape_prefix _ _ Hp). }
  split; [reflexivity | exact (str_app_cancel_l _ _ _ H)].
Qed.

Lemma json_escape_inj (s1 s2 r1 r2 : string) :
  (json_escape s1 ++ String dquote r1)%string = (json_escape s2 ++ String dquote r2)%string ->
  s1 = s2 /\ r1 = r2.
Proof.
  revert s2. induction s1 as [|c1 s1 IH]; intros [|c2 s2] H; simpl in H.
  - injection H as H. auto.
  - rewrite str_app_assoc in H.
    destruct (escape_head c2) as (d & r & Hd & Hne). rewrite Hd in H.
    injection H as H _. congruence.
  - rewrite str_app_assoc in H.
    destruct (escape_head c1) as (d & r & Hd & Hne). rewrite Hd in H.
    injection H as H _. congruence.
  - rewrite !str_app_assoc in H.
    destruct (escape_app_inj _ _ _ _ H) as [<- H'].
    destruct (IH s2 H') as [<- <-]. auto.
Qed.

(** The cache key of a query with an [id] variable determines the id: two
    queries of the same document for different ids never share a cache
    entry. *)
Theorem cache_key_id_injective (doc : QueryDoc) (a b : string) :
  cache_key doc (VarsId (Some a)) = cache_key doc (VarsId (Some b)) <-> a = b.
Proof.
  split; [| intros ->; reflexivity].
  unfold cache_key, stringify_variables. intros H.
  injection H as H. rewrite !str_app_assoc in H. simpl in H.
  exact (proj1 (json_escape_inj _ _ _ _ H)).
Qed.

(** When the character route's loader rejects, it does so at the settle time
    of the earliest failing critical fetch, with its error, without waiting
    for the other fetch; or, both fetches having fulfilled, with a
    [TypeError] at the later settle time because one of them returned a
    [null] [json.data]. *)
Theorem loader_rejection_source (c : Client) (id : option string) (e : error) :
  let cp := q_character c (VarsId id) CacheNone in
  let lp := q_locations c VarsEmpty CacheNone in
  outcome_of (snd (loader c id)) = Rejected e ->
  ((outcome_of cp = Rejected e /\ settles_at (snd (loader c id)) = settles_at cp) \/
   (outcome_of lp = Rejected e /\ settles_at (snd (loader c id)) = settles_at lp) \/
   (e = TypeError /\
    exists dc dl, outcome_of cp = Fulfilled dc /\ outcome_of lp = Fulfilled dl /\
      (dc = None \/ dl = None) /\
      settles_at (snd (loader c id)) = Nat.max (settles_at cp) (settles_at lp))) /\
  (forall e', outcome_of cp = Rejected e' -> settles_at (snd (loader c id)) <= settles_at cp) /\
  (forall e', outcome_of lp = Rejected e' -> settles_at (snd (loader c id)) <= settles_at lp).
Proof.
  intros cp lp. subst cp lp. rewrite loader_promise_eq.
  destruct (q_character c (VarsId id) CacheNone) as [t1 [[cd|]|e1]];
  destruct (q_locations c VarsEmpty CacheNone) as [t2 [[lq|]|e2]];
  unfold then_, promise_all2, destructure_critical; cbn [outcome_of settles_at];
  try (destruct (Nat.ltb_spec t2 t1) as [Hlt | Hge]); cbn [outcome_of settles_at];
  intro Hr; try discriminate; injection Hr as <-;
  (split; [| split; intros e' He'; try discriminate; lia]);
  first [ left; split; reflexivity
        | right; left; split; reflexivity
        | right; right; split; [reflexivity |]; eexists _, _; eauto 6 ].
Qed.

(** A client whose locations fetch fails after 10ms. *)
Definition failing_locations_client : Client :=
  mkClient (q_characters morty_client) (q_character morty_client)
    (fun _ _ => mkPromise 10 (Rejected (FetchError "Error fetching from rick and morty api: Not Found")))
    (q_episodes morty_client).

Lemma loader_rejection_source_witness :
  outcome_of (snd (loader failing_locations_client (Some "2"))) =
    Rejected (FetchError "Error fetching from rick and morty api: Not Found") /\
  settles_at (snd (loader failing_locations_client (Some "2"))) <= 10.
Proof.
  split; [reflexivity |].
  destruct (loader_rejection_source failing_locations_client (Some "2")
              (FetchError "Error fetching from rick and morty api: Not Found") eq_refl)
    as (_ & _ & Hl).
  exact (Hl _ eq_refl).
Defined.




